(** * birpc: the msgpack server codec adapter and the jsonrpc test handlers

    A shallow embedding of [msgpack/server.go] (the adapter that lets a
    [net/rpc] server codec serve as a [birpc.ServerCodec]) and of the
    handlers registered by [jsonrpc/all_test.go], together with the
    properties the specification states about them.

    Go values are modelled as follows: [string] as [string], [uint64] as
    [N], [int] as [Z] with the 64-bit two's-complement wrap-around written
    out, [error] as the text [Error()] returns ([None] is the nil error),
    [map[int]int] as an optional [gmap Z Z] ([None] is the nil map),
    [[]int] as [list Z] and [[1]int] as [vec Z 1].  A method with a pointer
    receiver or an out-parameter returns the new contents next to its
    result. *)

From Stdlib Require Import ZArith String List Lia.
From stdpp Require Import base option list gmap strings vector.
Import ListNotations.

Local Open Scope string_scope.
Local Open Scope Z_scope.

(** ** Go base types *)

Abbreviation uint64 := N (only parsing).

(** The value of a Go [error]: its message; [None] stands for [nil]. *)
Definition error := string.

Module errors.
(** [errors.New(text)] *)
Definition New (text : string) : option error := Some text.
End errors.

(** ** net/rpc: the headers and the server codec interface the adapter wraps *)

Module rpc.

(** [rpc.Request]: the header written before every call. *)
Record Request := mkRequest {
  Request_ServiceMethod : string;
  Request_Seq : uint64
}.

(** [rpc.Response]: the header written before every return; [Error] is
    empty when the call succeeded. *)
Record Response := mkResponse {
  Response_ServiceMethod : string;
  Response_Seq : uint64;
  Response_Error : string
}.

(** [&rpc.Request{}] *)
Definition Request_zero : Request :=
  {| Request_ServiceMethod := ""; Request_Seq := 0%N |}.

(** [rpc.ServerCodec], over the state [S] of the codec (with the
    connection it reads and writes) and the type [B] of the bodies passed
    as [interface{}].  A read takes the value behind the pointer it is
    given and returns what the pointer holds afterwards. *)
Class ServerCodec (S B : Type) := {
  ReadRequestHeader : S -> Request -> S * Request * option error;
  ReadRequestBody : S -> B -> S * B * option error;
  WriteResponse : S -> Response -> B -> S * option error;
  Close : S -> S * option error
}.

End rpc.

(** ** birpc: the headers of the framework itself *)

Module birpc.

(** Modelled from the spec: the declaration of [birpc.Request] is not
    among the sources; the specification gives the request header as
    {serviceMethod: string, seq: uint64}. *)
Record Request := mkRequest {
  Request_ServiceMethod : string;
  Request_Seq : uint64
}.

(** Modelled from the spec: the declaration of [birpc.Response] is not
    among the sources; the specification gives the response header as
    {seq: uint64, error: optional string}, and the sources read [Error]
    as a string, empty when there is no error. *)
Record Response := mkResponse {
  Response_Seq : uint64;
  Response_Error : string
}.

End birpc.

(** ** msgpack/server.go *)

Module msgpack.
Section Codec.

(** The wrapped codec [c.codec], which owns the connection [c.conn]. *)
Context {S B : Type} `{!rpc.ServerCodec S B}.

(** [c.conn.Close()], on the connection the wrapped codec was built on. *)
Variable conn_Close : S -> S * option error.

(** [convertFromRPCRequest(originReq, req)]: returns [*req] after the
    two assignments. *)
Definition convertFromRPCRequest (originReq : rpc.Request)
    (req : birpc.Request) : birpc.Request :=
  let req := {| birpc.Request_ServiceMethod := rpc.Request_ServiceMethod originReq;
                birpc.Request_Seq := birpc.Request_Seq req |} in
  let req := {| birpc.Request_ServiceMethod := birpc.Request_ServiceMethod req;
                birpc.Request_Seq := rpc.Request_Seq originReq |} in
  req.

(** [convertToRPCResponse(res)]: the composite literal sets [Seq] and
    [ServiceMethod]; [Error] keeps its zero value. *)
Definition convertToRPCResponse (res : birpc.Response) : rpc.Response :=
  {| rpc.Response_Seq := birpc.Response_Seq res;
     rpc.Response_ServiceMethod := birpc.Response_Error res;
     rpc.Response_Error := "" |}.

(** [msgpackServerCodec.ReadRequestHeader(r)] *)
Definition ReadRequestHeader (c : S) (r : birpc.Request)
    : S * birpc.Request * option error :=
  let ugorjiRequest := rpc.Request_zero in
  let '(c, ugorjiRequest, err) := rpc.ReadRequestHeader c ugorjiRequest in
  match err with
  | Some _ => (c, r, err)
  | None => (c, convertFromRPCRequest ugorjiRequest r, err)
  end.

(** [msgpackServerCodec.ReadRequestBody(body)] *)
Definition ReadRequestBody (c : S) (body : B) : S * B * option error :=
  rpc.ReadRequestBody c body.

(** [msgpackServerCodec.WriteResponse(r, body)] *)
Definition WriteResponse (c : S) (r : birpc.Response) (body : B)
    : S * option error :=
  let ugorjiResponse := convertToRPCResponse r in
  rpc.WriteResponse c ugorjiResponse body.

(** [msgpackServerCodec.Close()] *)
Definition Close (c : S) : S * option error := conn_Close c.

End Codec.
End msgpack.

(** ** A codec that replays a script and records what it is asked to write

    The wrapped codec is an interface; this instance is the test double
    used to run the adapter on concrete inputs.  Its reads replay a list of
    prepared results, its writes are logged in order. *)

Module script.

Inductive Read (B : Type) :=
| Header (h : rpc.Request)
| HeaderError (partial : rpc.Request) (e : error)
| Body (b : B)
| BodyError (e : error).
Arguments Header {B} h.
Arguments HeaderError {B} partial e.
Arguments Body {B} b.
Arguments BodyError {B} e.

Record State (B : Type) := mkState {
  reads : list (Read B);
  written : list (rpc.Response * B);
  closed : bool
}.
Arguments mkState {B} reads written closed.
Arguments reads {B} s.
Arguments written {B} s.
Arguments closed {B} s.

Definition EOF : error := "EOF".

Definition readHeader {B} (s : State B) (r : rpc.Request)
    : State B * rpc.Request * option error :=
  match reads s with
  | Header h :: rest => (mkState rest (written s) (closed s), h, None)
  | HeaderError partial e :: rest =>
      (mkState rest (written s) (closed s), partial, Some e)
  | _ => (s, r, Some EOF)
  end.

Definition readBody {B} (s : State B) (b : B) : State B * B * option error :=
  match reads s with
  | Body b' :: rest => (mkState rest (written s) (closed s), b', None)
  | BodyError e :: rest => (mkState rest (written s) (closed s), b, Some e)
  | _ => (s, b, Some EOF)
  end.

Definition write {B} (s : State B) (r : rpc.Response) (b : B)
    : State B * option error :=
  (mkState (reads s) (written s ++ [(r, b)])%list (closed s), None).

Definition close {B} (s : State B) : State B * option error :=
  (mkState (reads s) (written s) true, None).

#[global] Instance codec {B} : rpc.ServerCodec (State B) B := {
  rpc.ReadRequestHeader := readHeader;
  rpc.ReadRequestBody := readBody;
  rpc.WriteResponse := write;
  rpc.Close := close
}.

End script.

(** ** Go's [int]

    [int] is 64 bits wide on the platforms the tests run on.  The operators
    wrap around in two's complement; [x / y] truncates toward zero and
    panics at run time when [y] is zero. *)

Module goint.

Definition intSize : Z := 64.
Definition MinInt : Z := - 2 ^ (intSize - 1).
Definition MaxInt : Z := 2 ^ (intSize - 1) - 1.

(** The values an [int] variable can hold. *)
Definition is_int (x : Z) : Prop := MinInt <= x <= MaxInt.

(** The representative of [x] modulo [2^intSize] in the range of [int]. *)
Definition wrap (x : Z) : Z :=
  (x + 2 ^ (intSize - 1)) mod 2 ^ intSize - 2 ^ (intSize - 1).

(** [x + y] *)
Definition add (x y : Z) : Z := wrap (x + y).

(** [x * y] *)
Definition mul (x y : Z) : Z := wrap (x * y).

(** [x / y]; [None] is the run-time panic on a zero divisor. *)
Definition quo (x y : Z) : option Z :=
  if decide (y = 0) then None else Some (wrap (x ÷ y)).

Definition divideError : string := "runtime error: integer divide by zero".

End goint.

(** ** What a call of a handler does

    A handler either returns, with an error or [nil], having left [reply]
    in the slot its pointer argument designates, or panics with a value
    (rendered as text). *)

Inductive Outcome (R : Type) :=
| Returned (reply : R) (err : option error)
| Panicked (v : string).
Arguments Returned {R} reply err.
Arguments Panicked {R} v.

(** ** jsonrpc/all_test.go: the registered handlers *)

Module jsonrpc.

Record Args := mkArgs { A : Z; B : Z }.

Record Reply := mkReply { C : Z }.

(** [new(Reply)] *)
Definition Reply_zero : Reply := {| C := 0 |}.

(** The methods take [args *Args] and [reply *Reply]; the receiver and
    the context are never used.  [reply] is the value the slot holds
    when the method is entered. *)
Module Arith.

Definition Add (args : Args) (reply : Reply) : Outcome Reply :=
  let reply := {| C := goint.add (A args) (B args) |} in
  Returned reply None.

Definition Mul (args : Args) (reply : Reply) : Outcome Reply :=
  let reply := {| C := goint.mul (A args) (B args) |} in
  Returned reply None.

Definition Div (args : Args) (reply : Reply) : Outcome Reply :=
  if decide (B args = 0) then
    Returned reply (errors.New "divide by zero")
  else
    match goint.quo (A args) (B args) with
    | Some q =>
        let reply := {| C := q |} in
        Returned reply None
    | None => Panicked goint.divideError
    end.

Definition Error (args : Args) (reply : Reply) : Outcome Reply :=
  Panicked "ERROR".

End Arith.

Module BuiltinTypes.

Definition nilMapError : string :=
  "assignment to entry in nil map".

(** [reply *map[int]int]; a nil map cannot be assigned to. *)
Definition Map (i : Z) (reply : option (gmap Z Z))
    : Outcome (option (gmap Z Z)) :=
  match reply with
  | Some m => Returned (Some (<[i := i]> m)) None
  | None => Panicked nilMapError
  end.

(** [reply *[]int] *)
Definition Slice (i : Z) (reply : list Z) : Outcome (list Z) :=
  let reply := (reply ++ [i])%list in
  Returned reply None.

(** [reply *[1]int] *)
Definition Array (i : Z) (reply : vec Z 1) : Outcome (vec Z 1) :=
  let reply := vinsert 0%fin i reply in
  Returned reply None.

End BuiltinTypes.

(** *** Reply slots

    The out-of-order part of [TestClient] passes [mulReply] and
    [addReply], two separately allocated slots, to two calls in flight at
    once.  [slots] is the heap holding such slots; [invoke] is the
    completion of one call on the slot it was given. *)

Inductive Method := ArithAdd | ArithMul | ArithDiv | ArithError.

Definition method (m : Method) : Args -> Reply -> Outcome Reply :=
  match m with
  | ArithAdd => Arith.Add
  | ArithMul => Arith.Mul
  | ArithDiv => Arith.Div
  | ArithError => Arith.Error
  end.

Record Call := mkCall { call_method : Method; call_args : Args; call_reply : nat }.

Definition invoke (c : Call) (slots : gmap nat Reply) : gmap nat Reply :=
  match slots !! call_reply c with
  | Some reply =>
      match method (call_method c) (call_args c) reply with
      | Returned reply _ => <[call_reply c := reply]> slots
      | Panicked _ => slots
      end
  | None => slots
  end.

(** The calls complete in the order of the list. *)
Definition complete (cs : list Call) (slots : gmap nat Reply) : gmap nat Reply :=
  foldl (fun s c => invoke c s) slots cs.

End jsonrpc.

(** ** The server dispatcher

    The serve loop and the invocation of handlers live in the [birpc]
    package itself, which is not among the sources; only its tests are.
    This section follows the specification's description of the serve loop.
    Invocations run concurrently with the loop and with each other, so the
    dispatcher is a transition system: an action is either one iteration of
    the loop or the completion of one invocation in flight, and a schedule
    is any list of actions. *)

Module server.
Section Dispatcher.

(** The encoded parameters and results carried in message bodies. *)
Variable Body : Type.

(** Modelled from the spec: the handler descriptor kept by the registry,
    which is not among the sources: a type-erased invoker that allocates
    the argument and reply values and performs the call.  [inl e] is an
    argument body that does not decode into the argument type. *)
Definition Invoker : Type := Body -> error + Outcome Body.

(** Modelled from the spec: what the codec finds next on the stream; the
    request decoder is not among the sources.  Bytes that fail to parse
    as a request have a malformed header or a malformed body. *)
Inductive Frame :=
| MalformedHeader
| MalformedBody (hdr : birpc.Request)
| Request (hdr : birpc.Request) (params : Body).

(** Modelled from the spec: the frames that are a protocol error, a
    malformed header or a malformed body; the decoder is not among the
    sources. *)
Definition malformed (f : Frame) : bool :=
  match f with
  | MalformedHeader | MalformedBody _ => true
  | Request _ _ => false
  end.

(** Modelled from the spec: a written response, {seq, error-or-empty}
    plus the reply body on success and no body on error. *)
Definition Written : Type := birpc.Response * option Body.

(** Modelled from the spec: an error response, the error text and no body;
    the response writer is not among the sources. *)
Definition errorResponse (seq : uint64) (e : error) : Written :=
  ({| birpc.Response_Seq := seq; birpc.Response_Error := e |}, None).

(** Modelled from the spec: the end of an invocation, which is not among
    the sources: an abnormal termination of the handler is recovered and
    converted into an error response carrying its description. *)
Definition respond (seq : uint64) (o : Outcome Body) : Written :=
  match o with
  | Returned reply None =>
      ({| birpc.Response_Seq := seq; birpc.Response_Error := "" |}, Some reply)
  | Returned _ (Some e) => errorResponse seq e
  | Panicked descr => errorResponse seq descr
  end.

(** Modelled from the spec: one invocation as the unit of work it is, which
    is not among the sources: it runs the handler, whose outcome is [o],
    recovers an abnormal termination at its own boundary and ends with the
    response to write.  A [Panicked] outcome of the invocation itself would
    be a panic that nothing recovers, which ends the process. *)
Definition invocation (seq : uint64) (o : Outcome Body) : Outcome Written :=
  match o with
  | Returned reply err => Returned (respond seq (Returned reply err)) None
  | Panicked descr => Returned (errorResponse seq descr) None
  end.

(** Modelled from the spec: whether the serve loop, which is not among the
    sources, is still iterating or has returned. *)
Inductive Status := Serving | Stopped.

(** Modelled from the spec: the state of one serve loop, which is not
    among the sources: the frames not yet read, the invocations in flight
    (the sequence number of each and what its handler does), the
    responses written so far and whether the loop has returned. *)
Record State := mkState {
  input : list Frame;
  inflight : list (uint64 * Outcome Body);
  wire : list Written;
  loop : Status
}.

(** Modelled from the spec: the units of work that run concurrently, the
    serve loop and each invocation it has dispatched; the server is not
    among the sources.  [Read] is one iteration of the loop, [Complete k]
    the end of the [k]-th invocation in flight. *)
Inductive Action := Read | Complete (k : nat).

Definition is_read (a : Action) : bool :=
  match a with Read => true | Complete _ => false end.

(** The methods registered, by exact "Service.Method" name. *)
Variable registry : gmap string Invoker.

(** Modelled from the spec: one iteration of the serve loop, which is not
    among the sources.  A failed read (malformed bytes, or the end of the
    stream) makes the loop return; an unknown method and an argument that
    does not decode are answered with an error response and the loop
    continues; a known method is dispatched. *)
Definition serveRequest (st : State) : State :=
  match input st with
  | [] => mkState (input st) (inflight st) (wire st) Stopped
  | MalformedHeader :: _ | MalformedBody _ :: _ =>
      mkState (input st) (inflight st) (wire st) Stopped
  | Request hdr params :: rest =>
      let seq := birpc.Request_Seq hdr in
      match registry !! birpc.Request_ServiceMethod hdr with
      | None =>
          let e := "can't find method " +:+ birpc.Request_ServiceMethod hdr in
          mkState rest (inflight st) (wire st ++ [errorResponse seq e])%list Serving
      | Some invoker =>
          match invoker params with
          | inl e =>
              mkState rest (inflight st) (wire st ++ [errorResponse seq e])%list Serving
          | inr o =>
              mkState rest (inflight st ++ [(seq, o)])%list (wire st) Serving
          end
      end
  end.

(** Modelled from the spec: the completion of the [k]-th invocation in
    flight, which writes its response. *)
Definition completeCall (k : nat) (st : State) : option State :=
  match inflight st !! k with
  | Some (seq, o) =>
      Some (mkState (input st) (delete k (inflight st))
                    (wire st ++ [respond seq o])%list (loop st))
  | None => None
  end.

(** Modelled from the spec: after the loop has returned the connection is
    no longer usable, so no action is enabled. *)
Definition step (a : Action) (st : State) : option State :=
  match loop st with
  | Stopped => None
  | Serving =>
      match a with
      | Read => Some (serveRequest st)
      | Complete k => completeCall k st
      end
  end.

(** Modelled from the spec: the state a schedule leads to, completions
    being written in whatever order they are scheduled; an action that is
    not enabled is skipped.  The scheduler is Go's and not among the
    sources. *)
Fixpoint run (sched : list Action) (st : State) : State :=
  match sched with
  | [] => st
  | a :: sched =>
      match step a st with
      | Some st' => run sched st'
      | None => run sched st
      end
  end.

(** Modelled from the spec: a serve loop, which is not among the sources,
    started on a connection that delivers [frames]. *)
Definition ServeConn (frames : list Frame) : State :=
  mkState frames [] [] Serving.

(** The invocation of sequence number [seq] whose handler does [o] is
    still in flight, or its response has been written. *)
Definition answered_or_inflight (seq : uint64) (o : Outcome Body) (st : State)
    : Prop :=
  (seq, o) ∈ inflight st \/ respond seq o ∈ wire st.

(** The number of loop iterations a schedule asks for. *)
Definition reads (sched : list Action) : nat :=
  length (filter (fun a => is_read a = true) sched).

End Dispatcher.

Arguments MalformedHeader {Body}.
Arguments MalformedBody {Body} hdr.
Arguments Request {Body} hdr params.
Arguments malformed {Body} f.
Arguments errorResponse {Body} seq e.
Arguments respond {Body} seq o.
Arguments invocation {Body} seq o.
Arguments mkState {Body} input inflight wire loop.
Arguments input {Body} s.
Arguments inflight {Body} s.
Arguments wire {Body} s.
Arguments loop {Body} s.
Arguments serveRequest {Body} registry st.
Arguments completeCall {Body} k st.
Arguments step {Body} registry a st.
Arguments run {Body} registry sched st.
Arguments ServeConn {Body} frames.
Arguments answered_or_inflight {Body} seq o st.

End server.

(** ** The service the tests register

    [init] registers [new(Arith)]; the entries below are its four methods
    under their "Service.Method" names, each wrapped into an invoker that
    decodes the parameters into [Args], allocates a zero [Reply] and
    encodes the reply. *)

Module testserver.

(** The bodies that travel in the tests: the parameters and results of
    [Arith], and the string of [TestServerErrorHasNullResult]. *)
Inductive Value :=
| VArgs (args : jsonrpc.Args)
| VReply (reply : jsonrpc.Reply)
| VString (s : string).

(** Modelled from the spec: the invoker that registration, which is not
    among the sources, builds for a method of [Arith]: it decodes the
    parameters into a fresh [Args], allocates a zero [Reply], calls the
    method and encodes the reply. *)
Definition invoker (m : jsonrpc.Method) : server.Invoker Value :=
  fun params =>
    match params with
    | VArgs args =>
        inr match jsonrpc.method m args jsonrpc.Reply_zero with
            | Returned reply err => Returned (VReply reply) err
            | Panicked v => Panicked v
            end
    | _ => inl "cannot decode the parameters into Args"
    end.

(** Modelled from the spec: the registry after [birpc.Register(new(Arith))],
    looked up by exact "Service.Method" name; [Register] is not among the
    sources. *)
Definition registry : gmap string (server.Invoker Value) :=
  <["Arith.Add" := invoker jsonrpc.ArithAdd]>
  (<["Arith.Mul" := invoker jsonrpc.ArithMul]>
  (<["Arith.Div" := invoker jsonrpc.ArithDiv]>
  (<["Arith.Error" := invoker jsonrpc.ArithError]> ∅))).

(** The frame of a call of [m] on [Args{a, b}] with sequence number [seq]. *)
Definition call (m : string) (seq : uint64) (a b : Z) : server.Frame Value :=
  server.Request (birpc.mkRequest m seq) (VArgs (jsonrpc.mkArgs a b)).

End testserver.

(** ** Calls in series

    What a caller obtains by passing the same reply slot to one handler
    after the other. *)

Module series.

(** [for _, i := range ins { if err := method(ctx, i, &reply); err != nil
    { return err } }; return nil], where a panic of [method] ends the
    series. *)
Fixpoint calls {I R : Type} (method : I -> R -> Outcome R) (ins : list I)
    (reply : R) : Outcome R :=
  match ins with
  | [] => Returned reply None
  | i :: ins =>
      match method i reply with
      | Returned reply None => calls method ins reply
      | Returned reply (Some e) => Returned reply (Some e)
      | Panicked v => Panicked v
      end
  end.

End series.

(** ** jsonrpc/all_test.go: the in-memory pipe of [TestUnexpectedError] *)

Module pipe.
Section Pipe.

(** The states of an [*io.PipeReader] and of an [*io.PipeWriter], with
    their [Close] methods, which are package [io]'s. *)
Variables R W : Type.
Variable PipeReader_Close : R -> R * option error.
Variable PipeWriter_Close : W -> W * option error.

(** [type pipe struct { *io.PipeReader; *io.PipeWriter }] *)
Record pipe := mkPipe {
  PipeReader : R;
  PipeWriter : W
}.

(** [func (p *pipe) Close() error] *)
Definition Close (p : pipe) : pipe * option error :=
  let '(r, err) := PipeReader_Close (PipeReader p) in
  let '(w, err1) := PipeWriter_Close (PipeWriter p) in
  let err := match err with
             | None => err1
             | Some _ => err
             end in
  (mkPipe r w, err).

(** [SetTimeout], [SetReadTimeout] and [SetWriteTimeout] *)
Definition SetTimeout (p : pipe) (nsec : Z) : pipe * option error :=
  (p, errors.New "net.Pipe does not support timeouts").

End Pipe.

Arguments mkPipe {R W} PipeReader PipeWriter.
Arguments PipeReader {R W} p.
Arguments PipeWriter {R W} p.
Arguments Close {R W} PipeReader_Close PipeWriter_Close p.

End pipe.

(** * Properties *)

(** ** The msgpack adapter *)

Module msgpack_spec.
Section Adapter.

Context {S B : Type} `{!rpc.ServerCodec S B}.

Lemma convertFromRPCRequest_eq (originReq : rpc.Request) (req : birpc.Request) :
  msgpack.convertFromRPCRequest originReq req =
  {| birpc.Request_ServiceMethod := rpc.Request_ServiceMethod originReq;
     birpc.Request_Seq := rpc.Request_Seq originReq |}.
Proof. reflexivity. Qed.

Lemma convertToRPCResponse_Error (res : birpc.Response) :
  rpc.Response_Error (msgpack.convertToRPCResponse res) = "".
Proof. reflexivity. Qed.

Lemma convertToRPCResponse_ServiceMethod (res : birpc.Response) :
  rpc.Response_ServiceMethod (msgpack.convertToRPCResponse res) =
  birpc.Response_Error res.
Proof. reflexivity. Qed.

(** C2: when the wrapped codec decodes a request header without error,
    [ReadRequestHeader] returns no error and the caller's request holds
    exactly the decoded [ServiceMethod] and [Seq], whatever it held
    before. *)
Theorem ReadRequestHeader_copies_header
    (c c' : S) (r : birpc.Request) (decoded : rpc.Request) :
  rpc.ReadRequestHeader c rpc.Request_zero = (c', decoded, None) ->
  msgpack.ReadRequestHeader c r =
    (c', {| birpc.Request_ServiceMethod := rpc.Request_ServiceMethod decoded;
            birpc.Request_Seq := rpc.Request_Seq decoded |}, None).
Proof.
  intros Hread. unfold msgpack.ReadRequestHeader.
  rewrite Hread. now rewrite convertFromRPCRequest_eq.
Qed.

(** C9: when the header read of the wrapped codec fails,
    [ReadRequestHeader] returns that error and the caller's request is
    left as it was, whatever the wrapped codec had already decoded. *)
Theorem ReadRequestHeader_error_leaves_request
    (c c' : S) (r : birpc.Request) (partial : rpc.Request) (e : error) :
  rpc.ReadRequestHeader c rpc.Request_zero = (c', partial, Some e) ->
  msgpack.ReadRequestHeader c r = (c', r, Some e).
Proof.
  intros Hread. unfold msgpack.ReadRequestHeader. now rewrite Hread.
Qed.

(** C3: the header [WriteResponse] hands to the wrapped codec, together
    with the unchanged body, has the [Seq] of the header it was given. *)
Theorem WriteResponse_keeps_Seq (c : S) (r : birpc.Response) (body : B) :
  msgpack.WriteResponse c r body =
    rpc.WriteResponse c (msgpack.convertToRPCResponse r) body /\
  rpc.Response_Seq (msgpack.convertToRPCResponse r) = birpc.Response_Seq r.
Proof. split; reflexivity. Qed.

End Adapter.

(** On the recording codec: what one [WriteResponse] appends to the log. *)
Lemma WriteResponse_recorded {B} (s : script.State B) (r : birpc.Response) (body : B) :
  msgpack.WriteResponse s r body =
    (script.mkState (script.reads s)
       (script.written s ++ [(msgpack.convertToRPCResponse r, body)])%list
       (script.closed s), None).
Proof. reflexivity. Qed.

Lemma ReadRequestHeader_copies_header_witness :
  let c := script.mkState [script.Header (rpc.mkRequest "Arith.Add" 7%N);
                           script.Body "params"] [] false in
  rpc.ReadRequestHeader c rpc.Request_zero =
    (script.mkState [script.Body "params"] [] false,
     rpc.mkRequest "Arith.Add" 7%N, None) /\
  msgpack.ReadRequestHeader c (birpc.mkRequest "Stale.Method" 3%N) =
    (script.mkState [script.Body "params"] [] false,
     birpc.mkRequest "Arith.Add" 7%N, None).
Proof.
  split; [reflexivity|].
  apply (ReadRequestHeader_copies_header
           (script.mkState [script.Header (rpc.mkRequest "Arith.Add" 7%N);
                            script.Body "params"] [] false)
           (script.mkState [script.Body "params"] [] false)
           (birpc.mkRequest "Stale.Method" 3%N)
           (rpc.mkRequest "Arith.Add" 7%N)).
  reflexivity.
Defined.

Lemma ReadRequestHeader_error_leaves_request_witness :
  let c := script.mkState (B := string)
             [script.HeaderError (rpc.mkRequest "Arith" 0%N) "unexpected EOF"]
             [] false in
  rpc.ReadRequestHeader c rpc.Request_zero =
    (script.mkState [] [] false, rpc.mkRequest "Arith" 0%N, Some "unexpected EOF") /\
  msgpack.ReadRequestHeader c (birpc.mkRequest "Stale.Method" 3%N) =
    (script.mkState [] [] false, birpc.mkRequest "Stale.Method" 3%N,
     Some "unexpected EOF").
Proof.
  split; [reflexivity|].
  apply (ReadRequestHeader_error_leaves_request
           (script.mkState (B := string)
              [script.HeaderError (rpc.mkRequest "Arith" 0%N) "unexpected EOF"]
              [] false) _ _ (rpc.mkRequest "Arith" 0%N)).
  reflexivity.
Defined.

(** C1: for the header [{Seq: 1, Error: "some error"}] and a body,
    [WriteResponse] hands the wrapped codec a header whose [Error] is
    empty, with the error text in [ServiceMethod], and passes the body on:
    the response written has no error and carries the result. *)
Theorem WriteResponse_error_in_ServiceMethod :
  let r := {| birpc.Response_Seq := 1%N; birpc.Response_Error := "some error" |} in
  let body := "the value we don't want to see" in
  let c := script.mkState [] [] false in
  rpc.Response_Error (msgpack.convertToRPCResponse r) = "" /\
  rpc.Response_ServiceMethod (msgpack.convertToRPCResponse r) = "some error" /\
  msgpack.WriteResponse c r body =
    (script.mkState [] [({| rpc.Response_ServiceMethod := "some error";
                            rpc.Response_Seq := 1%N;
                            rpc.Response_Error := "" |}, body)] false, None).
Proof. repeat split. Qed.

End msgpack_spec.

(** ** Go's [int] arithmetic *)

Module goint_spec.

Lemma pow_intSize : 2 ^ goint.intSize = 2 * 2 ^ (goint.intSize - 1).
Proof. reflexivity. Qed.

Lemma pow_half_pos : 0 < 2 ^ (goint.intSize - 1).
Proof. reflexivity. Qed.

(** A wrapped value is an [int]. *)
Lemma wrap_is_int (x : Z) : goint.is_int (goint.wrap x).
Proof.
  unfold goint.is_int, goint.wrap, goint.MinInt, goint.MaxInt.
  pose proof (Z.mod_pos_bound (x + 2 ^ (goint.intSize - 1)) (2 ^ goint.intSize)
                eq_refl) as Hb.
  rewrite pow_intSize in Hb |- *. lia.
Qed.

(** Wrapping leaves an [int] alone: no overflow, no change. *)
Lemma wrap_small (x : Z) : goint.is_int x -> goint.wrap x = x.
Proof.
  unfold goint.is_int, goint.wrap, goint.MinInt, goint.MaxInt. intros Hx.
  rewrite Z.mod_small; [lia|]. rewrite pow_intSize. lia.
Qed.

Lemma quo_nonzero (x y : Z) : y <> 0 -> goint.quo x y = Some (goint.wrap (x ÷ y)).
Proof. intros Hy. unfold goint.quo. now destruct (decide (y = 0)). Qed.

End goint_spec.

(** ** The handlers of the tests *)

Module jsonrpc_spec.
Import jsonrpc.

Lemma invoke_returned (c : Call) (slots : gmap nat Reply) (old new : Reply)
    (err : option error) :
  slots !! call_reply c = Some old ->
  method (call_method c) (call_args c) old = Returned new err ->
  invoke c slots = <[call_reply c := new]> slots.
Proof. intros Hslot Hm. unfold invoke. now rewrite Hslot, Hm. Qed.

Lemma complete_two (c1 c2 : Call) (slots : gmap nat Reply)
    (old1 old2 new1 new2 : Reply) (err1 err2 : option error) :
  call_reply c1 <> call_reply c2 ->
  slots !! call_reply c1 = Some old1 ->
  slots !! call_reply c2 = Some old2 ->
  method (call_method c1) (call_args c1) old1 = Returned new1 err1 ->
  method (call_method c2) (call_args c2) old2 = Returned new2 err2 ->
  complete [c1; c2] slots =
    <[call_reply c2 := new2]> (<[call_reply c1 := new1]> slots).
Proof.
  intros Hne H1 H2 Hm1 Hm2. unfold complete. simpl.
  rewrite (invoke_returned c1 slots old1 new1 err1 H1 Hm1).
  apply (invoke_returned c2 _ old2 new2 err2); [|exact Hm2].
  now rewrite lookup_insert_ne.
Qed.

(** Two calls on separate slots, of methods that return, complete to the
    same slots in either order. *)
Lemma complete_swap (c1 c2 : Call) (slots : gmap nat Reply)
    (old1 old2 new1 new2 : Reply) (err1 err2 : option error) :
  call_reply c1 <> call_reply c2 ->
  slots !! call_reply c1 = Some old1 ->
  slots !! call_reply c2 = Some old2 ->
  method (call_method c1) (call_args c1) old1 = Returned new1 err1 ->
  method (call_method c2) (call_args c2) old2 = Returned new2 err2 ->
  complete [c1; c2] slots = complete [c2; c1] slots.
Proof.
  intros Hne H1 H2 Hm1 Hm2.
  rewrite (complete_two c1 c2 slots old1 old2 new1 new2 err1 err2) by done.
  rewrite (complete_two c2 c1 slots old2 old1 new2 new1 err2 err1) by done.
  now apply insert_insert_ne.
Qed.

(** C4: for every [Args], [Add] returns nil with [reply.C] set to Go's
    [A + B] and [Mul] returns nil with [reply.C] set to Go's [A * B],
    which are the sum and the product of the integers whenever these fit
    an [int]; [Add(7,8)] gives 15 and [Mul(7,8)] gives 56; and two such
    calls on separate reply slots leave 15 and 56 in them in whichever
    order they complete. *)
Theorem Arith_Add_Mul (args : Args) (reply : Reply) :
  Arith.Add args reply = Returned {| C := goint.add (A args) (B args) |} None /\
  Arith.Mul args reply = Returned {| C := goint.mul (A args) (B args) |} None /\
  (goint.is_int (A args + B args) ->
     Arith.Add args reply = Returned {| C := A args + B args |} None) /\
  (goint.is_int (A args * B args) ->
     Arith.Mul args reply = Returned {| C := A args * B args |} None) /\
  Arith.Add (mkArgs 7 8) reply = Returned {| C := 15 |} None /\
  Arith.Mul (mkArgs 7 8) reply = Returned {| C := 56 |} None /\
  (forall (slots : gmap nat Reply) (mulReply addReply : nat),
     mulReply <> addReply ->
     is_Some (slots !! mulReply) -> is_Some (slots !! addReply) ->
     let mulCall := mkCall ArithMul (mkArgs 7 8) mulReply in
     let addCall := mkCall ArithAdd (mkArgs 7 8) addReply in
     complete [mulCall; addCall] slots = complete [addCall; mulCall] slots /\
     complete [mulCall; addCall] slots !! addReply = Some {| C := 15 |} /\
     complete [mulCall; addCall] slots !! mulReply = Some {| C := 56 |}).
Proof.
  split; [reflexivity|]. split; [reflexivity|].
  split. { intros Hfit. unfold Arith.Add, goint.add. now rewrite goint_spec.wrap_small. }
  split. { intros Hfit. unfold Arith.Mul, goint.mul. now rewrite goint_spec.wrap_small. }
  split; [reflexivity|]. split; [reflexivity|].
  intros slots mulReply addReply Hne [m Hm] [a Ha] mulCall addCall.
  assert (Hboth : complete [mulCall; addCall] slots =
                  <[addReply := {| C := 15 |}]> (<[mulReply := {| C := 56 |}]> slots)).
  { now apply (complete_two mulCall addCall slots m a _ _ None None). }
  split.
  - now apply (complete_swap mulCall addCall slots m a
                 {| C := 56 |} {| C := 15 |} None None).
  - rewrite Hboth. split; [apply lookup_insert_eq|].
    rewrite lookup_insert_ne by done. apply lookup_insert_eq.
Qed.

Lemma Arith_Add_Mul_witness :
  let slots : gmap nat Reply := <[0%nat := Reply_zero]> (<[1%nat := Reply_zero]> ∅) in
  let mulCall := mkCall ArithMul (mkArgs 7 8) 0 in
  let addCall := mkCall ArithAdd (mkArgs 7 8) 1 in
  (goint.is_int (7 + 8) /\ goint.is_int (7 * 8)) /\
  Arith.Add (mkArgs 7 8) Reply_zero = Returned {| C := 7 + 8 |} None /\
  Arith.Mul (mkArgs 7 8) Reply_zero = Returned {| C := 7 * 8 |} None /\
  complete [mulCall; addCall] slots = complete [addCall; mulCall] slots /\
  complete [mulCall; addCall] slots !! 1%nat = Some {| C := 15 |} /\
  complete [mulCall; addCall] slots !! 0%nat = Some {| C := 56 |}.
Proof.
  intros slots mulCall addCall.
  destruct (Arith_Add_Mul (mkArgs 7 8) Reply_zero)
    as (_ & _ & Hadd & Hmul & _ & _ & Horder).
  assert (Hsum : goint.is_int (7 + 8)) by (vm_compute; split; discriminate).
  assert (Hprod : goint.is_int (7 * 8)) by (vm_compute; split; discriminate).
  split; [now split|].
  split; [exact (Hadd Hsum)|].
  split; [exact (Hmul Hprod)|].
  apply (Horder slots 0%nat 1%nat).
  - discriminate.
  - exists Reply_zero. reflexivity.
  - exists Reply_zero. reflexivity.
Defined.

(** C5: [Div] returns an error exactly when [B] is 0.  With [B = 0] the
    error reads "divide by zero" and the reply slot is left as it was, so
    a fresh slot keeps its zero value, as for [Div(7,0)]; with [B <> 0]
    it returns nil, without panicking, and [reply.C] is Go's [A / B], the
    quotient truncated toward zero whenever that fits an [int]. *)
Theorem Arith_Div (args : Args) (reply : Reply) :
  (B args = 0 ->
     Arith.Div args reply = Returned reply (Some "divide by zero")) /\
  (B args <> 0 ->
     Arith.Div args reply = Returned {| C := goint.wrap (A args ÷ B args) |} None) /\
  (B args <> 0 -> goint.is_int (A args ÷ B args) ->
     Arith.Div args reply = Returned {| C := A args ÷ B args |} None) /\
  ((exists r e, Arith.Div args reply = Returned r (Some e)) <-> B args = 0) /\
  Arith.Div (mkArgs 7 0) Reply_zero = Returned Reply_zero (Some "divide by zero").
Proof.
  assert (Hzero : B args = 0 ->
            Arith.Div args reply = Returned reply (Some "divide by zero")).
  { intros HB. unfold Arith.Div. now destruct (decide (B args = 0)). }
  assert (Hquo : B args <> 0 ->
            Arith.Div args reply =
            Returned {| C := goint.wrap (A args ÷ B args) |} None).
  { intros HB. unfold Arith.Div. destruct (decide (B args = 0)); [done|].
    now rewrite goint_spec.quo_nonzero. }
  split; [exact Hzero|]. split; [exact Hquo|].
  split. { intros HB Hfit. rewrite (Hquo HB). now rewrite goint_spec.wrap_small. }
  split; [|reflexivity].
  split.
  - intros (r & e & Hdiv). destruct (decide (B args = 0)) as [HB|HB]; [exact HB|].
    rewrite (Hquo HB) in Hdiv. discriminate.
  - intros HB. exists reply, "divide by zero". exact (Hzero HB).
Qed.

Lemma Arith_Div_witness :
  (B (mkArgs 7 0) = 0 /\
   Arith.Div (mkArgs 7 0) Reply_zero = Returned Reply_zero (Some "divide by zero")) /\
  (B (mkArgs (-7) 2) <> 0 /\ goint.is_int (-7 ÷ 2) /\
   Arith.Div (mkArgs (-7) 2) Reply_zero = Returned {| C := -3 |} None).
Proof.
  split.
  - split; [reflexivity|].
    apply (proj1 (Arith_Div (mkArgs 7 0) Reply_zero)). reflexivity.
  - assert (HB : B (mkArgs (-7) 2) <> 0) by discriminate.
    assert (Hfit : goint.is_int (-7 ÷ 2)) by (vm_compute; split; discriminate).
    split; [exact HB|]. split; [exact Hfit|].
    destruct (Arith_Div (mkArgs (-7) 2) Reply_zero) as (_ & _ & Hq & _).
    exact (Hq HB Hfit).
Defined.

(** The one array with the single element [x]. *)
Lemma vec1_inv (a : vec Z 1) : exists x, a = [# x].
Proof. inv_vec a. intros x. now exists x. Qed.

(** C6: for every int [i], [Map] returns nil with the entry of the reply
    map at key [i] set to [i] and the other entries kept, [Slice]
    returns nil with the reply slice extended by [i], and [Array]
    returns nil with element 0 of the reply array, its only element, set
    to [i]. *)
Theorem BuiltinTypes_handlers (i : Z) :
  (forall m : gmap Z Z,
     BuiltinTypes.Map i (Some m) = Returned (Some (<[i := i]> m)) None /\
     (<[i := i]> m) !! i = Some i /\
     delete i (<[i := i]> m) = delete i m) /\
  (forall l : list Z,
     BuiltinTypes.Slice i l = Returned (l ++ [i])%list None) /\
  (forall a : vec Z 1,
     BuiltinTypes.Array i a = Returned [# i] None /\ [# i] !!! 0%fin = i).
Proof.
  split; [|split].
  - intros m. split; [reflexivity|]. split; [apply lookup_insert_eq|].
    apply delete_insert_eq.
  - reflexivity.
  - intros a. destruct (vec1_inv a) as [x ->]. split; reflexivity.
Qed.

(** Handed a nil map instead of an allocated one, [Map] panics. *)
Lemma BuiltinTypes_Map_nil (i : Z) :
  BuiltinTypes.Map i None = Panicked BuiltinTypes.nilMapError.
Proof. reflexivity. Qed.

(** C10: [Slice] appends: whatever the reply slice [l] holds, after the
    call it is [l] followed by [i]: one element longer, its first
    [length l] elements those of [l], its last one [i]. *)
Theorem BuiltinTypes_Slice_appends (i : Z) (l : list Z) :
  exists l', BuiltinTypes.Slice i l = Returned l' None /\
    l' = (l ++ [i])%list /\
    length l' = Datatypes.S (length l) /\
    take (length l) l' = l /\
    l' !! length l = Some i.
Proof.
  exists (l ++ [i])%list. split; [reflexivity|]. split; [reflexivity|].
  split; [rewrite length_app; simpl; lia|].
  split; [now rewrite take_app_length|].
  now rewrite list_lookup_middle.
Qed.

End jsonrpc_spec.

(** ** The serve loop *)

Module server_spec.
Import server.

Section Dispatcher.

Variable Body : Type.
Variable registry : gmap string (Invoker Body).

Implicit Types (st : State Body) (f : Frame Body) (sched : list Action).

Lemma step_Stopped a st : loop st = Stopped -> step registry a st = None.
Proof. intros Hl. unfold step. now rewrite Hl. Qed.

(** Once the loop has returned, no schedule changes anything. *)
Lemma run_Stopped sched st : loop st = Stopped -> run registry sched st = st.
Proof.
  intros Hl. induction sched as [|a sched IH]; [reflexivity|].
  simpl. now rewrite (step_Stopped a st Hl).
Qed.

Lemma serveRequest_malformed st f rest :
  input st = f :: rest -> malformed f = true ->
  serveRequest registry st = mkState (input st) (inflight st) (wire st) Stopped.
Proof.
  intros Hin Hf. unfold serveRequest. rewrite Hin.
  destruct f; [reflexivity|reflexivity|discriminate].
Qed.

(** A well-formed request is consumed and the loop goes on. *)
Lemma serveRequest_request st f rest :
  input st = f :: rest -> malformed f = false ->
  input (serveRequest registry st) = rest /\
  loop (serveRequest registry st) = Serving.
Proof.
  intros Hin Hf. unfold serveRequest. rewrite Hin.
  destruct f as [| |hdr params]; [discriminate|discriminate|].
  destruct (registry !! birpc.Request_ServiceMethod hdr) as [invoker|];
    [destruct (invoker params)|]; split; reflexivity.
Qed.

(** A completion neither reads from the connection nor ends the loop. *)
Lemma completeCall_input_loop k st st' :
  completeCall k st = Some st' -> input st' = input st /\ loop st' = loop st.
Proof.
  unfold completeCall. destruct (inflight st !! k) as [[seq o]|]; [|discriminate].
  intros [= <-]. split; reflexivity.
Qed.

Lemma reads_nil : reads [] = 0%nat.
Proof. reflexivity. Qed.

Lemma reads_Read sched : reads (Read :: sched) = Datatypes.S (reads sched).
Proof. unfold reads. now rewrite filter_cons_True. Qed.

Lemma reads_Complete k sched : reads (Complete k :: sched) = reads sched.
Proof. unfold reads. now rewrite filter_cons_False. Qed.

(** The loop returns within one iteration more than there are requests
    ahead of the malformed frame, whatever completes in between. *)
Lemma run_reaches_malformed sched : forall st pre f post,
  loop st = Serving ->
  input st = (pre ++ f :: post)%list ->
  Forall (fun g => malformed g = false) pre ->
  malformed f = true ->
  (length pre < reads sched)%nat ->
  loop (run registry sched st) = Stopped /\
  input (run registry sched st) = f :: post.
Proof.
  induction sched as [|a sched IH]; intros st pre f post Hl Hin Hpre Hf Hreads.
  - rewrite reads_nil in Hreads. lia.
  - simpl. unfold step. rewrite Hl. destruct a as [|k].
    + rewrite reads_Read in Hreads. destruct pre as [|g pre].
      * simpl in Hin.
        rewrite (serveRequest_malformed st f post Hin Hf).
        rewrite run_Stopped by reflexivity. simpl. now split.
      * simpl in Hin, Hreads. apply Forall_cons in Hpre as [Hg Hpre].
        destruct (serveRequest_request st g _ Hin Hg) as [Hin' Hl'].
        apply (IH _ pre f post Hl' Hin' Hpre Hf). lia.
    + rewrite reads_Complete in Hreads.
      destruct (completeCall k st) as [st'|] eqn:Hc.
      * destruct (completeCall_input_loop k st st' Hc) as [Hin' Hl'].
        apply (IH st' pre f post); congruence.
      * now apply (IH st pre f post).
Qed.

(** C7: when the stream holds a frame that fails to parse, with a
    malformed header or a malformed body, after any number of requests,
    the serve loop returns on reading it, within one iteration more than
    there are requests before it and whatever completes in between; it
    has then read nothing behind the failure, and no further read, write
    or iteration happens on the connection. *)
Theorem malformed_input_ends_loop
    (pre : list (Frame Body)) f (post : list (Frame Body)) sched :
  Forall (fun g => malformed g = false) pre ->
  malformed f = true ->
  (length pre < reads sched)%nat ->
  let st := run registry sched (ServeConn (pre ++ f :: post)) in
  loop st = Stopped /\
  input st = f :: post /\
  (forall a, step registry a st = None) /\
  (forall more, run registry more st = st).
Proof.
  intros Hpre Hf Hreads st.
  destruct (run_reaches_malformed sched (ServeConn (pre ++ f :: post))%list
              pre f post eq_refl eq_refl Hpre Hf Hreads) as [Hl Hin].
  split; [exact Hl|]. split; [exact Hin|].
  split; [intros a; now apply step_Stopped | intros more; now apply run_Stopped].
Qed.

(** *** An invocation in flight is answered or still in flight *)

Lemma elem_of_delete_or {X} (l : list X) (k : nat) (x y : X) :
  x ∈ l -> l !! k = Some y -> x ∈ delete k l \/ x = y.
Proof.
  intros Hx Hk. apply list_elem_of_lookup in Hx as [i Hi].
  destruct (Nat.lt_total i k) as [Hlt|[->|Hgt]].
  - left. apply list_elem_of_lookup. exists i.
    now rewrite list_lookup_delete_lt.
  - right. congruence.
  - left. apply list_elem_of_lookup. exists (Nat.pred i).
    rewrite list_lookup_delete_ge by lia.
    now replace (Datatypes.S (Nat.pred i)) with i by lia.
Qed.

Lemma serveRequest_keeps seq o st :
  answered_or_inflight seq o st ->
  answered_or_inflight seq o (serveRequest registry st).
Proof.
  unfold answered_or_inflight, serveRequest. intros Hst.
  destruct (input st) as [|[| |hdr params] rest]; [exact Hst..|].
  destruct (registry !! birpc.Request_ServiceMethod hdr) as [invoker|];
    [destruct (invoker params)|]; simpl;
    rewrite ?elem_of_app; tauto.
Qed.

Lemma completeCall_keeps seq o k st st' :
  completeCall k st = Some st' ->
  answered_or_inflight seq o st -> answered_or_inflight seq o st'.
Proof.
  unfold answered_or_inflight, completeCall.
  destruct (inflight st !! k) as [[seq' o']|] eqn:Hk; [|discriminate].
  intros [= <-] [Hin|Hw]; simpl.
  - destruct (elem_of_delete_or _ k _ _ Hin Hk) as [Hd|[= -> ->]].
    + now left.
    + right. apply elem_of_app. right. now apply list_elem_of_singleton.
  - right. apply elem_of_app. now left.
Qed.

(** Under every schedule. *)
Lemma run_keeps seq o sched : forall st,
  answered_or_inflight seq o st ->
  answered_or_inflight seq o (run registry sched st).
Proof.
  induction sched as [|a sched IH]; intros st Hst; [exact Hst|].
  simpl. destruct (step registry a st) as [st'|] eqn:Hstep; [|now apply IH].
  apply IH. unfold step in Hstep. destruct (loop st); [|discriminate].
  destruct a as [|k].
  - injection Hstep as <-. now apply serveRequest_keeps.
  - now apply (completeCall_keeps seq o k st).
Qed.

Lemma run_app sched more : forall st,
  run registry (sched ++ more) st = run registry more (run registry sched st).
Proof.
  induction sched as [|a sched IH]; intros st; [reflexivity|].
  simpl. destruct (step registry a st); apply IH.
Qed.

(** What is on the wire stays there. *)
Lemma step_wire (w : Written Body) a st st' :
  step registry a st = Some st' -> w ∈ wire st -> w ∈ wire st'.
Proof.
  unfold step. destruct (loop st); [|discriminate]. destruct a as [|k].
  - intros [= <-] Hw. unfold serveRequest.
    destruct (input st) as [|[| |hdr params] rest]; [exact Hw..|].
    destruct (registry !! birpc.Request_ServiceMethod hdr) as [invoker|];
      [destruct (invoker params)|]; simpl; rewrite ?elem_of_app; tauto.
  - unfold completeCall.
    destruct (inflight st !! k) as [[seq o]|]; [|discriminate].
    intros [= <-] Hw. simpl. apply elem_of_app. now left.
Qed.

Lemma run_wire (w : Written Body) sched : forall st,
  w ∈ wire st -> w ∈ wire (run registry sched st).
Proof.
  induction sched as [|a sched IH]; intros st Hw; [exact Hw|].
  simpl. destruct (step registry a st) as [st'|] eqn:Hstep; [|now apply IH].
  apply IH. now apply (step_wire w a st).
Qed.

(** The end of an invocation is the response its completion writes, and
    never a panic. *)
Lemma invocation_respond (seq : uint64) (o : Outcome Body) :
  invocation seq o = Returned (respond seq o) None.
Proof. destruct o as [reply [e|]|descr]; reflexivity. Qed.

(** The completion of a panicking invocation while the loop serves. *)
Lemma Complete_Panicked st k (seq : uint64) (descr : string) :
  loop st = Serving ->
  inflight st !! k = Some (seq, Panicked descr) ->
  step registry (Complete k) st =
    Some (mkState (input st) (delete k (inflight st))
            (wire st ++ [errorResponse seq descr])%list Serving).
Proof.
  intros Hl Hk. unfold step, completeCall. rewrite Hl, Hk. reflexivity.
Qed.


End Dispatcher.

(** *** On the service of the tests *)

Lemma malformed_input_ends_loop_witness :
  let pre := [testserver.call "Arith.Add" 1 7 8] in
  let f := MalformedBody (birpc.mkRequest "Arith.Mul" 2%N) in
  let post := [testserver.call "Arith.Mul" 3 7 8] in
  let sched := [Read; Complete 0; Read; Read; Complete 0] in
  (Forall (fun g => malformed g = false) pre /\
   malformed f = true /\
   (length pre < reads sched)%nat) /\
  let st := run testserver.registry sched (ServeConn (pre ++ f :: post)) in
  loop st = Stopped /\
  input st = f :: post /\
  (forall a, step testserver.registry a st = None) /\
  (forall more, run testserver.registry more st = st).
Proof.
  intros pre f post sched.
  assert (Hpre : Forall (fun g => malformed g = false) pre)
    by (repeat constructor).
  assert (Hf : malformed f = true) by reflexivity.
  assert (Hreads : (length pre < reads sched)%nat)
    by (vm_compute; repeat constructor).
  split; [now repeat split|].
  exact (malformed_input_ends_loop testserver.Value testserver.registry
           pre f post sched Hpre Hf Hreads).
Defined.

(** What that run leaves on the wire: the answer to the one request ahead
    of the malformed frame, and nothing for the request behind it. *)
Example malformed_input_wire :
  wire (run testserver.registry [Read; Complete 0; Read; Read; Complete 0]
          (ServeConn [testserver.call "Arith.Add" 1 7 8;
                      MalformedBody (birpc.mkRequest "Arith.Mul" 2%N);
                      testserver.call "Arith.Mul" 3 7 8])) =
  [(birpc.mkResponse 1 "", Some (testserver.VReply (jsonrpc.mkReply 15)))].
Proof. vm_compute. reflexivity. Qed.



(** The request behind the panicking one is served all the same, here
    even answered first. *)
Example panicking_handler_wire :
  let st := run testserver.registry [Read; Read; Complete 1; Complete 0]
              (ServeConn [testserver.call "Arith.Error" 1 7 8; testserver.call "Arith.Add" 2 7 8]) in
  wire st =
    [(birpc.mkResponse 2 "", Some (testserver.VReply (jsonrpc.mkReply 15)));
     errorResponse 1 "ERROR"] /\
  loop st = Serving /\ inflight st = [] /\ input st = [].
Proof. vm_compute. repeat split. Qed.

End server_spec.


(** * Further properties of the code *)

(** ** The msgpack adapter: how its operations compose *)

Module msgpack_laws.
Section Adapter.

Context {S B : Type} `{!rpc.ServerCodec S B}.

(** X1: a response built from a request the adapter has read correlates
    with it: when the wrapped codec decodes the header [h], the adapter's
    read returns nil and leaves the wrapped codec as the decoding left it,
    and writing a response that carries the [Seq] of the request read hands
    the wrapped codec a header with [h]'s [Seq], for every error text and
    body. *)
Theorem read_then_write_keeps_Seq
    (c c' : S) (h : rpc.Request) (r : birpc.Request) (e : string) (body : B) :
  rpc.ReadRequestHeader c rpc.Request_zero = (c', h, None) ->
  exists r',
    msgpack.ReadRequestHeader c r = (c', r', None) /\
    msgpack.WriteResponse c'
      {| birpc.Response_Seq := birpc.Request_Seq r';
         birpc.Response_Error := e |} body =
    rpc.WriteResponse c'
      {| rpc.Response_ServiceMethod := e;
         rpc.Response_Seq := rpc.Request_Seq h;
         rpc.Response_Error := "" |} body.
Proof.
  intros Hread.
  exists {| birpc.Request_ServiceMethod := rpc.Request_ServiceMethod h;
            birpc.Request_Seq := rpc.Request_Seq h |}.
  split; [|reflexivity].
  unfold msgpack.ReadRequestHeader. now rewrite Hread.
Qed.

(** X2: what the caller's request held before the call never shows after
    a successful read: for two requests [r1] and [r2] the adapter leaves
    the wrapped codec in the same state and returns the same error, and
    when that error is nil, the same request; when it is not, each request
    comes back as it was. *)
Theorem ReadRequestHeader_forgets_stale (c : S) (r1 r2 : birpc.Request) :
  let '(c1, r1', err1) := msgpack.ReadRequestHeader c r1 in
  let '(c2, r2', err2) := msgpack.ReadRequestHeader c r2 in
  c1 = c2 /\ err1 = err2 /\
  (err1 = None -> r1' = r2') /\
  (err1 <> None -> r1' = r1 /\ r2' = r2).
Proof.
  unfold msgpack.ReadRequestHeader.
  destruct (rpc.ReadRequestHeader c rpc.Request_zero) as [[c' h] [e|]].
  - repeat split; congruence.
  - repeat split; congruence.
Qed.

End Adapter.

Lemma read_then_write_keeps_Seq_witness :
  let c := script.mkState [script.Header (rpc.mkRequest "Arith.Div" 9%N)] [] false in
  let c' := script.mkState (B := string) [] [] false in
  rpc.ReadRequestHeader c rpc.Request_zero = (c', rpc.mkRequest "Arith.Div" 9%N, None) /\
  exists r',
    msgpack.ReadRequestHeader c (birpc.mkRequest "" 0%N) = (c', r', None) /\
    msgpack.WriteResponse c' (birpc.mkResponse (birpc.Request_Seq r') "divide by zero")
      "null" =
    rpc.WriteResponse c' (rpc.mkResponse "divide by zero" 9%N "") "null".
Proof.
  split; [reflexivity|].
  apply (read_then_write_keeps_Seq
           (script.mkState [script.Header (rpc.mkRequest "Arith.Div" 9%N)] [] false)
           (script.mkState (B := string) [] [] false)
           (rpc.mkRequest "Arith.Div" 9%N) (birpc.mkRequest "" 0%N)
           "divide by zero" "null").
  reflexivity.
Defined.

Lemma ReadRequestHeader_forgets_stale_witness :
  let ok := script.mkState (B := string)
              [script.Header (rpc.mkRequest "Arith.Add" 7%N)] [] false in
  let bad := script.mkState (B := string)
               [script.HeaderError (rpc.mkRequest "Ari" 0%N) "unexpected EOF"] [] false in
  let r1 := birpc.mkRequest "Stale.One" 1%N in
  let r2 := birpc.mkRequest "Stale.Two" 2%N in
  snd (fst (msgpack.ReadRequestHeader ok r1)) = snd (fst (msgpack.ReadRequestHeader ok r2)) /\
  snd (fst (msgpack.ReadRequestHeader bad r1)) = r1 /\
  snd (fst (msgpack.ReadRequestHeader bad r2)) = r2.
Proof.
  intros ok bad r1 r2.
  pose proof (ReadRequestHeader_forgets_stale ok r1 r2) as Hok.
  pose proof (ReadRequestHeader_forgets_stale bad r1 r2) as Hbad.
  destruct (msgpack.ReadRequestHeader ok r1) as [[c1 r1'] err1] eqn:E1.
  destruct (msgpack.ReadRequestHeader ok r2) as [[c2 r2'] err2] eqn:E2.
  destruct (msgpack.ReadRequestHeader bad r1) as [[d1 s1'] f1] eqn:F1.
  destruct (msgpack.ReadRequestHeader bad r2) as [[d2 s2'] f2] eqn:F2.
  simpl. destruct Hok as (_ & _ & Hsame & _). destruct Hbad as (_ & _ & _ & Hkept).
  split.
  - apply Hsame. injection E1 as _ _ <-. reflexivity.
  - apply Hkept. injection F1 as _ _ <-. discriminate.
Defined.

End msgpack_laws.

(** ** The handlers: overflow, division and round trips *)

Module handlers_laws.
Import jsonrpc.

(** A wrapped value differs from the exact one by a multiple of
    [2^intSize]. *)
Lemma wrap_congr (x : Z) : (goint.wrap x - x) mod 2 ^ goint.intSize = 0.
Proof.
  unfold goint.wrap.
  set (h := 2 ^ (goint.intSize - 1)). set (m := 2 ^ goint.intSize).
  pose proof (Z.div_mod (x + h) m ltac:(discriminate)) as Hdm.
  replace ((x + h) mod m - h - x) with (- ((x + h) / m) * m) by lia.
  apply Z_mod_mult.
Qed.

(** Two [int]s that differ by a multiple of [2^intSize] are equal. *)
Lemma int_congr_unique (c c' : Z) :
  goint.is_int c -> goint.is_int c' ->
  (c - c') mod 2 ^ goint.intSize = 0 -> c = c'.
Proof.
  unfold goint.is_int, goint.MinInt, goint.MaxInt. intros Hc Hc' Hmod.
  apply Z.mod_divide in Hmod; [|discriminate]. destruct Hmod as [k Hk].
  rewrite goint_spec.pow_intSize in Hk.
  pose proof goint_spec.pow_half_pos as Hpos.
  set (h := 2 ^ (goint.intSize - 1)) in *.
  assert (Hk0 : k = 0); [|subst k; lia].
  destruct (Z.lt_trichotomy k 0) as [Hneg|[Hz|Hpos']]; [|exact Hz|].
  - assert (k * (2 * h) <= - (2 * h)) by nia. lia.
  - assert (2 * h <= k * (2 * h)) by nia. lia.
Qed.

Lemma congr_trans (c x y : Z) :
  (c - x) mod 2 ^ goint.intSize = 0 -> (y - x) mod 2 ^ goint.intSize = 0 ->
  (c - y) mod 2 ^ goint.intSize = 0.
Proof.
  intros H1 H2. apply Z.mod_divide in H1, H2; try discriminate.
  apply Z.mod_divide; [discriminate|].
  replace (c - y) with ((c - x) - (y - x)) by lia. now apply Z.divide_sub_r.
Qed.

(** The quotient of two [int]s fits an [int] but for [MinInt / -1]. *)
Lemma quot_is_int (a b : Z) :
  goint.is_int a -> goint.is_int b -> b <> 0 ->
  ~ (a = goint.MinInt /\ b = -1) -> goint.is_int (a ÷ b).
Proof.
  unfold goint.is_int, goint.MinInt, goint.MaxInt. intros Ha Hb Hb0 Hov.
  pose proof (Z.quot_rem' a b) as Hqr.
  pose proof (Z.rem_bound_abs a b Hb0) as Hr.
  pose proof (Z.rem_sign_mul a b Hb0) as Hs.
  change (2 ^ (goint.intSize - 1)) with 9223372036854775808 in *.
  nia.
Qed.

(** X4: [Add] and [Mul] never fail and never panic, overflow included:
    [reply.C] is then the one [int] that differs from the exact sum (the
    exact product) by a multiple of [2^64]. *)
Theorem Add_Mul_wrap_around (args : Args) (reply : Reply) :
  exists s p,
    Arith.Add args reply = Returned {| C := s |} None /\
    Arith.Mul args reply = Returned {| C := p |} None /\
    goint.is_int s /\ goint.is_int p /\
    (s - (A args + B args)) mod 2 ^ goint.intSize = 0 /\
    (p - A args * B args) mod 2 ^ goint.intSize = 0 /\
    (forall c, goint.is_int c ->
       (c - (A args + B args)) mod 2 ^ goint.intSize = 0 -> c = s) /\
    (forall c, goint.is_int c ->
       (c - A args * B args) mod 2 ^ goint.intSize = 0 -> c = p).
Proof.
  exists (goint.add (A args) (B args)), (goint.mul (A args) (B args)).
  split; [reflexivity|]. split; [reflexivity|].
  split; [apply goint_spec.wrap_is_int|]. split; [apply goint_spec.wrap_is_int|].
  split; [apply wrap_congr|]. split; [apply wrap_congr|].
  split; intros c Hc Hmod.
  - apply int_congr_unique; [exact Hc | apply goint_spec.wrap_is_int |].
    apply (congr_trans c (A args + B args)); [exact Hmod | apply wrap_congr].
  - apply int_congr_unique; [exact Hc | apply goint_spec.wrap_is_int |].
    apply (congr_trans c (A args * B args)); [exact Hmod | apply wrap_congr].
Qed.

Lemma Add_Mul_wrap_around_witness :
  (goint.is_int goint.MinInt /\
   (goint.MinInt - (goint.MaxInt + 1)) mod 2 ^ goint.intSize = 0) /\
  Arith.Add (mkArgs goint.MaxInt 1) Reply_zero = Returned {| C := goint.MinInt |} None.
Proof.
  assert (Hint : goint.is_int goint.MinInt) by (vm_compute; split; discriminate).
  assert (Hmod : (goint.MinInt - (goint.MaxInt + 1)) mod 2 ^ goint.intSize = 0)
    by reflexivity.
  split; [now split|].
  destruct (Add_Mul_wrap_around (mkArgs goint.MaxInt 1) Reply_zero)
    as (s & p & Hadd & _ & _ & _ & _ & _ & Hsum & _).
  rewrite Hadd. now rewrite <- (Hsum goint.MinInt Hint Hmod).
Defined.

(** X5: [Div] never panics: the test on [B] keeps the division from a zero
    divisor.  For [int]s [A] and [B <> 0] it returns nil with the exact
    quotient truncated toward zero, but for [MinInt / -1], whose quotient
    does not fit and comes back as [MinInt]. *)
Theorem Div_never_panics (args : Args) (reply : Reply) :
  (forall v, Arith.Div args reply <> Panicked v) /\
  (goint.is_int (A args) -> goint.is_int (B args) -> B args <> 0 ->
   Arith.Div args reply =
     Returned {| C := if decide (A args = goint.MinInt /\ B args = -1)
                      then goint.MinInt else A args ÷ B args |} None).
Proof.
  split.
  - intros v. unfold Arith.Div.
    destruct (decide (B args = 0)) as [HB|HB]; [discriminate|].
    now rewrite goint_spec.quo_nonzero.
  - intros HA HB HB0. unfold Arith.Div.
    destruct (decide (B args = 0)) as [|_]; [done|].
    rewrite goint_spec.quo_nonzero by done.
    destruct (decide (A args = goint.MinInt /\ B args = -1)) as [[-> ->]|Hov].
    + reflexivity.
    + now rewrite goint_spec.wrap_small by now apply quot_is_int.
Qed.

Lemma Div_never_panics_witness :
  (goint.is_int goint.MinInt /\ goint.is_int (-1) /\ -1 <> 0) /\
  Arith.Div (mkArgs goint.MinInt (-1)) Reply_zero =
    Returned {| C := goint.MinInt |} None /\
  Arith.Div (mkArgs (-7) 2) Reply_zero = Returned {| C := -3 |} None.
Proof.
  assert (Hmin : goint.is_int goint.MinInt) by (vm_compute; split; discriminate).
  assert (Hm1 : goint.is_int (-1)) by (vm_compute; split; discriminate).
  assert (H7 : goint.is_int (-7)) by (vm_compute; split; discriminate).
  assert (H2 : goint.is_int 2) by (vm_compute; split; discriminate).
  split; [repeat split; [apply Hmin | apply Hmin | apply Hm1 | apply Hm1 | discriminate]|].
  split.
  - exact (proj2 (Div_never_panics (mkArgs goint.MinInt (-1)) Reply_zero)
             Hmin Hm1 ltac:(discriminate)).
  - exact (proj2 (Div_never_panics (mkArgs (-7) 2) Reply_zero)
             H7 H2 ltac:(discriminate)).
Defined.

(** X6: [Div] rounds toward zero: for [int]s [A] and [B <> 0], [MinInt / -1]
    apart, what [reply.C] leaves of [A], that is [A - B * reply.C], is
    smaller than [B] in absolute value and is zero or has the sign of [A]. *)
Theorem Div_truncates (args : Args) (reply : Reply) :
  goint.is_int (A args) -> goint.is_int (B args) -> B args <> 0 ->
  ~ (A args = goint.MinInt /\ B args = -1) ->
  exists q,
    Arith.Div args reply = Returned {| C := q |} None /\
    Z.abs (A args - B args * q) < Z.abs (B args) /\
    0 <= A args * (A args - B args * q).
Proof.
  intros HA HB HB0 Hov. exists (A args ÷ B args). split.
  - unfold Arith.Div. destruct (decide (B args = 0)) as [|_]; [done|].
    rewrite goint_spec.quo_nonzero by done.
    now rewrite goint_spec.wrap_small by now apply quot_is_int.
  - pose proof (Z.quot_rem' (A args) (B args)) as Hqr.
    pose proof (Z.rem_bound_abs (A args) (B args) HB0) as Hr.
    pose proof (Z.rem_sign_mul (A args) (B args) HB0) as Hs.
    replace (A args - B args * (A args ÷ B args)) with (Z.rem (A args) (B args))
      by lia.
    split; lia.
Qed.

Lemma Div_truncates_witness :
  exists q,
    Arith.Div (mkArgs (-7) 2) Reply_zero = Returned {| C := q |} None /\
    Z.abs (-7 - 2 * q) < Z.abs 2 /\ 0 <= -7 * (-7 - 2 * q).
Proof.
  apply (Div_truncates (mkArgs (-7) 2) Reply_zero).
  - vm_compute; split; discriminate.
  - vm_compute; split; discriminate.
  - discriminate.
  - intros [H _]. discriminate H.
Defined.

(** X7: [Div] undoes [Mul]: for an [int] [a] and [b <> 0] whose product
    fits an [int], dividing the [reply.C] of [Mul(a, b)] by [b] gives [a]
    back, with no error. *)
Theorem Mul_then_Div (a b : Z) (reply1 reply2 : Reply) :
  goint.is_int a -> b <> 0 -> goint.is_int (a * b) ->
  exists p,
    Arith.Mul (mkArgs a b) reply1 = Returned {| C := p |} None /\
    Arith.Div (mkArgs p b) reply2 = Returned {| C := a |} None.
Proof.
  intros Ha Hb Hfit. exists (a * b). split.
  - unfold Arith.Mul, goint.mul. simpl. now rewrite goint_spec.wrap_small.
  - unfold Arith.Div. simpl. destruct (decide (b = 0)) as [|_]; [done|].
    rewrite goint_spec.quo_nonzero by done.
    rewrite Z.quot_mul by done. now rewrite goint_spec.wrap_small.
Qed.

Lemma Mul_then_Div_witness :
  exists p,
    Arith.Mul (mkArgs 7 8) Reply_zero = Returned {| C := p |} None /\
    Arith.Div (mkArgs p 8) Reply_zero = Returned {| C := 7 |} None.
Proof.
  apply (Mul_then_Div 7 8 Reply_zero Reply_zero).
  - vm_compute; split; discriminate.
  - discriminate.
  - vm_compute; split; discriminate.
Defined.

(** When the product overflows, the quotient is not the factor. *)
Example Mul_then_Div_overflow :
  Arith.Mul (mkArgs (2 ^ 62) 4) Reply_zero = Returned {| C := 0 |} None /\
  Arith.Div (mkArgs 0 4) Reply_zero = Returned {| C := 0 |} None.
Proof. split; reflexivity. Qed.

End handlers_laws.

(** ** The handlers on container replies: calls in series *)

Module builtin_laws.
Import jsonrpc.

(** What a series of [Map] calls leaves in an allocated reply map. *)
Lemma Map_calls_lookup (ks : list Z) : forall m : gmap Z Z,
  exists m',
    series.calls BuiltinTypes.Map ks (Some m) = Returned (Some m') None /\
    forall k, m' !! k = if decide (k ∈ ks) then Some k else m !! k.
Proof.
  induction ks as [|i ks IH]; intros m.
  - exists m. split; [reflexivity|]. intros k.
    destruct (decide (k ∈ [])) as [Hin|_]; [|reflexivity].
    now apply elem_of_nil in Hin.
  - destruct (IH (<[i := i]> m)) as (m' & Hcalls & Hlook).
    exists m'. split; [exact Hcalls|]. intros k. rewrite Hlook.
    destruct (decide (k ∈ ks)) as [Hin|Hout];
      destruct (decide (k ∈ i :: ks)) as [Hin'|Hout']; try reflexivity.
    + exfalso. apply Hout'. apply elem_of_cons. now right.
    + apply elem_of_cons in Hin' as [->|Hin']; [|contradiction].
      apply lookup_insert_eq.
    + apply lookup_insert_ne. intros <-. apply Hout'. apply elem_of_cons. now left.
Qed.

(** X8: a series of [Map] calls on an allocated reply map never fails and
    never panics; afterwards every key passed maps to itself and every
    other key has the entry it had.  On a nil reply map the first call
    panics. *)
Theorem Map_calls (ks : list Z) :
  (forall m : gmap Z Z,
     exists m',
       series.calls BuiltinTypes.Map ks (Some m) = Returned (Some m') None /\
       (forall k, m' !! k = if decide (k ∈ ks) then Some k else m !! k) /\
       dom m' = list_to_set ks ∪ dom m) /\
  (forall k, series.calls BuiltinTypes.Map (k :: ks) None =
             Panicked BuiltinTypes.nilMapError).
Proof.
  split; [|reflexivity].
  intros m. destruct (Map_calls_lookup ks m) as (m' & Hcalls & Hlook).
  exists m'. split; [exact Hcalls|]. split; [exact Hlook|].
  apply set_eq. intros k. rewrite elem_of_union, elem_of_list_to_set.
  rewrite !elem_of_dom, Hlook.
  destruct (decide (k ∈ ks)) as [Hin|Hout].
  - split; [now left | intros _; now exists k].
  - split; [now right | now intros [?|?]].
Qed.

(** X9: the order in which [Map] calls are made on one reply map, and so
    the order in which concurrent calls on it complete, does not matter:
    series that are permutations of each other have the same outcome, on
    an allocated map and on a nil one. *)
Theorem Map_calls_any_order (ks js : list Z) (reply : option (gmap Z Z)) :
  ks ≡ₚ js ->
  series.calls BuiltinTypes.Map ks reply = series.calls BuiltinTypes.Map js reply.
Proof.
  intros Hperm. destruct reply as [m|].
  - destruct (Map_calls_lookup ks m) as (m1 & -> & H1).
    destruct (Map_calls_lookup js m) as (m2 & -> & H2).
    f_equal. f_equal. apply map_eq. intros k. rewrite H1, H2.
    destruct (decide (k ∈ ks)) as [Hin|Hout];
      destruct (decide (k ∈ js)) as [Hin'|Hout']; try reflexivity.
    + exfalso. apply Hout'. now rewrite <- Hperm.
    + exfalso. apply Hout. now rewrite Hperm.
  - destruct ks as [|k ks], js as [|j js]; try reflexivity.
    + now apply Permutation_nil_cons in Hperm.
    + symmetry in Hperm. now apply Permutation_nil_cons in Hperm.
Qed.

Lemma Map_calls_any_order_witness :
  [3; 1; 2; 1] ≡ₚ [1; 2; 3; 1] /\
  series.calls BuiltinTypes.Map [3; 1; 2; 1] (Some ∅) =
  series.calls BuiltinTypes.Map [1; 2; 3; 1] (Some ∅).
Proof.
  assert (Hperm : [3; 1; 2; 1] ≡ₚ [1; 2; 3; 1]).
  { apply (Permutation_trans (l' := [1; 3; 2; 1])); [apply perm_swap|].
    apply perm_skip. apply perm_swap. }
  split; [exact Hperm|].
  exact (Map_calls_any_order [3; 1; 2; 1] [1; 2; 3; 1] (Some ∅) Hperm).
Defined.

(** X10: a series of [Slice] calls never fails and leaves the reply slice
    followed by the ints passed, in the order of the calls. *)
Theorem Slice_calls (ks : list Z) : forall l : list Z,
  series.calls BuiltinTypes.Slice ks l = Returned (l ++ ks)%list None.
Proof.
  induction ks as [|i ks IH]; intros l; simpl.
  - now rewrite app_nil_r.
  - rewrite IH. now rewrite <- app_assoc.
Qed.

(** X11: the last call wins on an array reply: after a series of [Array]
    calls the reply array holds the int of the last call, whatever it held
    before and whatever the earlier calls passed. *)
Theorem Array_calls (ks : list Z) (i : Z) : forall a : vec Z 1,
  series.calls BuiltinTypes.Array (ks ++ [i])%list a = Returned [# i] None.
Proof.
  induction ks as [|k ks IH]; intros a.
  - destruct (jsonrpc_spec.vec1_inv a) as [x ->]. reflexivity.
  - simpl. apply IH.
Qed.

End builtin_laws.

(** ** The pipe *)

Module pipe_spec.
Section Pipe.

Variables R W : Type.
Variable PipeReader_Close : R -> R * option error.
Variable PipeWriter_Close : W -> W * option error.

(** X12: [Close] closes both halves, the writer also when closing the
    reader fails; it returns nil exactly when both succeed, the reader's
    error when the reader fails, whatever the writer does, and the
    writer's result otherwise. *)
Theorem Close_closes_both (p : pipe.pipe R W) :
  let '(r, err) := PipeReader_Close (pipe.PipeReader p) in
  let '(w, err1) := PipeWriter_Close (pipe.PipeWriter p) in
  exists res,
    pipe.Close PipeReader_Close PipeWriter_Close p = (pipe.mkPipe r w, res) /\
    (res = None <-> err = None /\ err1 = None) /\
    (forall e, err = Some e -> res = Some e) /\
    (err = None -> res = err1).
Proof.
  unfold pipe.Close.
  destruct (PipeReader_Close (pipe.PipeReader p)) as [r [e|]];
    destruct (PipeWriter_Close (pipe.PipeWriter p)) as [w [e1|]];
    eexists; (split; [reflexivity|]); repeat split; try congruence;
    intros [? ?]; congruence.
Qed.

End Pipe.

Lemma Close_closes_both_witness :
  let close_fails (what : string) (open : bool) : bool * option error :=
    (false, Some what) in
  pipe.Close (close_fails "reader") (close_fails "writer") (pipe.mkPipe true true) =
    (pipe.mkPipe false false, Some "reader").
Proof.
  intros close_fails.
  pose proof (Close_closes_both bool bool (close_fails "reader")
                (close_fails "writer") (pipe.mkPipe true true)) as H.
  simpl in H. destruct H as (res & -> & _ & Hreader & _).
  now rewrite (Hreader "reader" eq_refl).
Defined.

End pipe_spec.
